(** * asynchronous_downloads: a shallow embedding of [async_url_downloads.py]

    The module downloads a batch of URLs twice, once request by request
    ([sequential_downloads]) and once with every request in flight
    ([asynchronous_downloads], built on [request_url_responses] and the three
    response readers), and compares the two result lists.

    Modelling choices.
    - A Python call either returns a value or raises: [outcome].
    - An [async def] body is a [coroutine]: a finite chain of suspension
      points ([Await]) that ends in an [outcome].  Every [await] of the source
      is one [Await].
    - The asyncio event loop is a list of [Task]s together with a schedule
      (a [list nat]): at every turn the schedule picks which of the tasks
      that are still pending is resumed next.  Response latency is exactly
      this choice, so a statement quantified over every schedule holds for
      every completion order.
    - The network is a function from URL to what the server sends back:
      nothing (a transport fault), or a status flag and the body as the
      sequence of data segments in which it reaches the client.
    - [bytes.decode], [str.splitlines] and [csv.reader] are modelled after
      CPython; the JSON decoder is a parameter. *)

From Stdlib Require Import NArith String Ascii Lia.
From Stdlib Require Import Init.Byte.
From stdpp Require Import base list.
From Equations Require Import Equations.
From Equations.Prop Require Import Logic.

Set Default Proof Using "Type".

(** ** Python values used by the module *)

(** [bytes] / [bytearray]. *)
Definition bytes := list byte.

(** [str]: a sequence of Unicode code points. *)
Definition str := list N.

(** A [str] literal, written as a Rocq string of Latin-1 characters. *)
Definition u (s : string) : str := N_of_ascii <$> list_ascii_of_string s.

(** A [bytes] literal. *)
Definition b (s : string) : bytes := list_byte_of_string s.

(** The exceptions that the module and the libraries under it can raise. *)
Inductive exn : Type :=
| ClientError            (* aiohttp: connection refused, timeout, DNS, ... *)
| RequestException       (* requests: the same faults on the blocking path *)
| UnicodeDecodeError
| JSONDecodeError
| csv_Error (msg : string)
| TypeError (msg : string)
| InvalidStateError
| Exception (msg : string).

(** What a call does: it returns or it raises. *)
Inductive outcome (A : Type) : Type :=
| Return (a : A)
| Raise (e : exn).
Arguments Return {A} a.
Arguments Raise {A} e.

(** ** Coroutines *)

(** The body of an [async def]: [Await k] suspends at an [await] and goes on
    as [k] once the event loop resumes it. *)
Inductive coroutine (A : Type) : Type :=
| Done (r : outcome A)
| Await (k : coroutine A).
Arguments Done {A} r.
Arguments Await {A} k.

(** [x = await c; f x] *)
Fixpoint bind {A B} (c : coroutine A) (f : A -> coroutine B) : coroutine B :=
  match c with
  | Done (Return a) => f a
  | Done (Raise e) => Done (Raise e)
  | Await k => Await (bind k f)
  end.

(** The outcome of a coroutine that is resumed until it finishes. *)
Fixpoint value {A} (c : coroutine A) : outcome A :=
  match c with
  | Done r => r
  | Await k => value k
  end.

(** Number of suspension points left. *)
Fixpoint depth {A} (c : coroutine A) : nat :=
  match c with
  | Done _ => 0
  | Await k => S (depth k)
  end.

(** ** asyncio *)

Module asyncio.

(** A task wraps a coroutine; it is pending until the coroutine has run to
    its end, and then holds the result or the exception. *)
Inductive Task (A : Type) : Type :=
| Pending (c : coroutine A)
| Finished (r : outcome A).
Arguments Pending {A} c.
Arguments Finished {A} r.

(** [asyncio.ensure_future(coro)]: the task is scheduled, nothing of the
    coroutine has run yet. *)
Definition ensure_future {A} (c : coroutine A) : Task A := Pending c.

(** One turn of a task: run its coroutine up to the next suspension. *)
Definition resume {A} (c : coroutine A) : Task A :=
  match c with
  | Done r => Finished r
  | Await k => Pending k
  end.

(** The pending tasks with their positions, counted from [i]. *)
Fixpoint ready_from {A} (i : nat) (tasks : list (Task A))
  : list (nat * coroutine A) :=
  match tasks with
  | [] => []
  | Pending c :: tasks' => (i, c) :: ready_from (S i) tasks'
  | Finished _ :: tasks' => ready_from (S i) tasks'
  end.

Definition ready {A} (tasks : list (Task A)) : list (nat * coroutine A) :=
  ready_from 0 tasks.

(** The event loop's choice: the head of the schedule, read modulo the
    number of pending tasks, says which of them is resumed.  An exhausted
    schedule resumes the first pending task.  [None] when no task is
    pending. *)
Definition select {A} (loop : list nat) (tasks : list (Task A))
  : option (nat * coroutine A) :=
  ready tasks !! (hd 0 loop `mod` length (ready tasks)).

(** Work left in a task list: the number of turns until every task has
    finished. *)
Definition turns {A} (t : Task A) : nat :=
  match t with
  | Pending c => S (depth c)
  | Finished _ => 0
  end.

Definition work {A} (tasks : list (Task A)) : nat :=
  sum_list (turns <$> tasks).

(** [fut.result()] of every child, in the order of the children. *)
Fixpoint results {A} (tasks : list (Task A)) : outcome (list A) :=
  match tasks with
  | [] => Return []
  | Finished (Return a) :: tasks' =>
      match results tasks' with
      | Return l => Return (a :: l)
      | Raise e => Raise e
      end
  | Finished (Raise e) :: _ => Raise e
  | Pending _ :: _ => Raise InvalidStateError
  end.

(** What a task yields in the end, whenever it is resumed. *)
Definition task_outcome {A} (t : Task A) : outcome A :=
  match t with
  | Pending c => value c
  | Finished r => r
  end.

Definition finished {A} (t : Task A) : Prop :=
  match t with
  | Pending _ => False
  | Finished _ => True
  end.

(** *** Termination of the event loop *)

Lemma ready_from_lookup {A} (tasks : list (Task A)) i j n c :
  ready_from i tasks !! j = Some (n, c) ->
  exists m, n = i + m /\ tasks !! m = Some (Pending c).
Proof.
  revert i j. induction tasks as [|t tasks IH]; intros i j; simpl; [done|].
  destruct t as [c'|r].
  - destruct j as [|j]; simpl.
    + intros [= <- <-]. exists 0. split; [lia | done].
    + intros H. destruct (IH _ _ H) as (m & -> & Hm).
      exists (S m). split; [lia | done].
  - intros H. destruct (IH _ _ H) as (m & -> & Hm).
    exists (S m). split; [lia | done].
Qed.

Lemma select_Some {A} loop (tasks : list (Task A)) i c :
  select loop tasks = Some (i, c) -> tasks !! i = Some (Pending c).
Proof.
  unfold select, ready. intros H.
  apply ready_from_lookup in H as (m & -> & Hm). exact Hm.
Qed.

Lemma work_insert {A} (tasks : list (Task A)) i t t' :
  tasks !! i = Some t -> turns t' < turns t ->
  work (<[i:=t']> tasks) < work tasks.
Proof.
  unfold work. revert i. induction tasks as [|t0 tasks IH]; intros i; [done|].
  destruct i as [|i]; cbn.
  - intros [= ->] Hlt. lia.
  - intros Hi Hlt. apply Nat.add_lt_mono_l, (IH i Hi Hlt).
Qed.

(** [await asyncio.gather] over the tasks, run by the event loop under the
    schedule [loop].  The loop resumes one pending task per turn.  A task
    that finishes with an exception sets that exception on the gathering
    future at once, and the awaiting coroutine gets it; when the last task
    has finished, the gathering future gets the list of the tasks' results,
    in the order of the tasks. *)
Equations? gather {A} (loop : list nat) (tasks : list (Task A))
  : outcome (list A) by wf (work tasks) lt :=
gather loop tasks with inspect (select loop tasks) := {
  | exist _ None _ => results tasks
  | exist _ (Some (i, Done (Raise e))) _ => Raise e
  | exist _ (Some (i, Done (Return a))) H =>
      gather (tl loop) (<[i:=Finished (Return a)]> tasks)
  | exist _ (Some (i, Await k)) H =>
      gather (tl loop) (<[i:=Pending k]> tasks) }.
Proof.
  all: apply select_Some in H; eapply work_insert; [exact H | simpl; lia].
Qed.

(** The positions of the tasks in the order in which they finish, when the
    loop resumes them under the schedule [loop] until none is pending. *)
Equations? completion_order {A} (loop : list nat) (tasks : list (Task A))
  : list nat by wf (work tasks) lt :=
completion_order loop tasks with inspect (select loop tasks) := {
  | exist _ None _ => []
  | exist _ (Some (i, Done r)) H =>
      i :: completion_order (tl loop) (<[i:=Finished r]> tasks)
  | exist _ (Some (i, Await k)) H =>
      completion_order (tl loop) (<[i:=Pending k]> tasks) }.
Proof.
  all: apply select_Some in H; eapply work_insert; [exact H | simpl; lia].
Qed.

End asyncio.

(** ** The network *)

(** What a server sends back for one GET: whether the status is a success
    status, and the body.  The body is given as the sequence of segments in
    which it reaches a streaming client: a segment is the data that is in the
    client's buffer when one read is served. *)
Record Reply : Type := { reply_ok : bool; reply_body : list bytes }.

(** [None] is a transport fault: no HTTP response at all. *)
Definition Network : Type := string -> option Reply.

(** The body of the reply to [url] when the status is a success status. *)
Definition success_content (network : Network) (url : string) : option bytes :=
  match network url with
  | Some reply =>
      if reply_ok reply then Some (concat (reply_body reply)) else None
  | None => None
  end.

(** [url] gets a reply with a non-success status. *)
Definition failed (network : Network) (url : string) : bool :=
  match network url with
  | Some reply => negb (reply_ok reply)
  | None => false
  end.

(** ** aiohttp *)

Module aiohttp.

(** [response.content]: the data that has not been read yet. *)
Definition StreamReader : Type := list bytes.

(** What [StreamReader.read(n)] returns once the event loop has resumed the
    caller, and the stream after it: at most [n] bytes of the buffered
    data, and no bytes only at the end of the stream (the stream never
    queues empty data). *)
Fixpoint read_nowait (n : nat) (content : StreamReader)
  : bytes * StreamReader :=
  match content with
  | [] => ([], [])
  | [] :: rest => read_nowait n rest
  | data :: rest => (take n data, drop n data :: rest)
  end.

(** Number of bytes that are still to be read. *)
Definition unread (content : StreamReader) : nat := length (concat content).

Record ClientResponse : Type := { ok : bool; content : StreamReader }.

(** [aiohttp.ClientSession()]: a session talks to the network. *)
Record ClientSession : Type := { connector : Network }.

(** The response that [async with session.get(url) as response] binds, or
    the transport fault it raises. *)
Definition get (session : ClientSession) (url : string)
  : outcome ClientResponse :=
  match connector session url with
  | None => Raise ClientError
  | Some reply =>
      Return {| ok := reply_ok reply; content := reply_body reply |}
  end.

Lemma read_nowait_concat n content chunk content' :
  read_nowait n content = (chunk, content') ->
  concat content = chunk ++ concat content'.
Proof.
  induction content as [|data rest IH]; simpl.
  - intros [= <- <-]. done.
  - destruct data as [|x data]; [exact IH|].
    intros [= <- <-]. simpl concat. rewrite app_assoc, take_drop. done.
Qed.

Lemma read_nowait_unread n content x chunk content' :
  read_nowait n content = (x :: chunk, content') ->
  unread content' < unread content.
Proof.
  intros H%read_nowait_concat. unfold unread. rewrite H.
  rewrite length_app. simpl. lia.
Qed.

End aiohttp.

(** ** requests *)

Module requests.

(** A response of the blocking client: [response.content] is the whole
    body. *)
Record Response : Type := { ok : bool; content : bytes }.

(** [requests.Session().get(url)] *)
Definition get (network : Network) (url : string) : outcome Response :=
  match network url with
  | None => Raise RequestException
  | Some reply =>
      Return {| ok := reply_ok reply; content := concat (reply_body reply) |}
  end.

End requests.

(** ** [bytearray.decode('utf-8')] *)

Module utf_8.

Definition between (lo hi x : N) : bool := ((lo <=? x) && (x <=? hi))%N.

(** A continuation byte contributes its six low bits. *)
Definition low6 (x : N) : N := N.land x 0x3F.

Definition push (c : N) (r : outcome str) : outcome str :=
  match r with
  | Return s => Return (c :: s)
  | Raise e => Raise e
  end.

(** Strict decoding: overlong forms, surrogates, code points above
    U+10FFFF, stray continuation bytes and truncated sequences raise
    [UnicodeDecodeError]. *)
Fixpoint decode (data : bytes) : outcome str :=
  match data with
  | [] => Return []
  | b0 :: rest =>
      let x0 := Byte.to_N b0 in
      if (x0 <? 0x80)%N then push x0 (decode rest)
      else if (x0 <? 0xC2)%N then Raise UnicodeDecodeError
      else if (x0 <? 0xE0)%N then
        match rest with
        | b1 :: rest1 =>
            let x1 := Byte.to_N b1 in
            if between 0x80 0xBF x1
            then push (N.lor (N.shiftl (N.land x0 0x1F) 6) (low6 x1))
                      (decode rest1)
            else Raise UnicodeDecodeError
        | _ => Raise UnicodeDecodeError
        end
      else if (x0 <? 0xF0)%N then
        match rest with
        | b1 :: b2 :: rest2 =>
            let x1 := Byte.to_N b1 in
            let x2 := Byte.to_N b2 in
            let lo := if (x0 =? 0xE0)%N then 0xA0%N else 0x80%N in
            let hi := if (x0 =? 0xED)%N then 0x9F%N else 0xBF%N in
            if between lo hi x1 && between 0x80 0xBF x2
            then push (N.lor (N.shiftl (N.land x0 0x0F) 12)
                        (N.lor (N.shiftl (low6 x1) 6) (low6 x2)))
                      (decode rest2)
            else Raise UnicodeDecodeError
        | _ => Raise UnicodeDecodeError
        end
      else if (x0 <? 0xF5)%N then
        match rest with
        | b1 :: b2 :: b3 :: rest3 =>
            let x1 := Byte.to_N b1 in
            let x2 := Byte.to_N b2 in
            let x3 := Byte.to_N b3 in
            let lo := if (x0 =? 0xF0)%N then 0x90%N else 0x80%N in
            let hi := if (x0 =? 0xF4)%N then 0x8F%N else 0xBF%N in
            if between lo hi x1 && between 0x80 0xBF x2
               && between 0x80 0xBF x3
            then push (N.lor (N.shiftl (N.land x0 0x07) 18)
                        (N.lor (N.shiftl (low6 x1) 12)
                           (N.lor (N.shiftl (low6 x2) 6) (low6 x3))))
                      (decode rest3)
            else Raise UnicodeDecodeError
        | _ => Raise UnicodeDecodeError
        end
      else Raise UnicodeDecodeError
  end.

End utf_8.

(** ** [str.splitlines()] *)

Definition LF : N := 0x0A.
Definition CR : N := 0x0D.

(** The line boundaries of [str.splitlines]: LF, VT, FF, CR, FS, GS, RS, NEL,
    LINE SEPARATOR and PARAGRAPH SEPARATOR. *)
Definition is_linebreak (c : N) : bool :=
  (utf_8.between 0x0A 0x0D c || utf_8.between 0x1C 0x1E c || (c =? 0x85)
   || (c =? 0x2028) || (c =? 0x2029))%N.

(** [splitlines_from line s]: the lines of [s], where [line] is the part of
    the current line that has been scanned already.  CR LF is one boundary;
    the boundaries are not kept; text after the last boundary is a line only
    when it is not empty. *)
Fixpoint splitlines_from (line s : str) : list str :=
  match s with
  | [] => match line with [] => [] | _ => [line] end
  | c :: rest =>
      if is_linebreak c then
        match rest with
        | c' :: rest' =>
            if (c =? CR)%N && (c' =? LF)%N
            then line :: splitlines_from [] rest'
            else line :: splitlines_from [] rest
        | [] => line :: splitlines_from [] rest
        end
      else splitlines_from (line ++ [c]) rest
  end.

Definition splitlines (s : str) : list str := splitlines_from [] s.

(** ** [csv.reader] *)

(** The reader of CPython's [_csv] module: a state machine that is fed the
    characters of every line and an end-of-line mark after each line.  The
    quoting style is QUOTE_MINIMAL, the one of the [excel] dialect that
    [csv.reader] starts from. *)
Module csv.

Inductive ParserState : Type :=
| START_RECORD | START_FIELD | ESCAPED_CHAR | IN_FIELD | IN_QUOTED_FIELD
| ESCAPE_IN_QUOTED_FIELD | QUOTE_IN_QUOTED_FIELD | EAT_CRNL
| AFTER_ESCAPED_CRNL.

Record Dialect : Type := {
  delimiter : N;
  quotechar : option N;
  escapechar : option N;
  doublequote : bool;
  skipinitialspace : bool;
  strict : bool }.

(** The [excel] dialect. *)
Definition excel : Dialect :=
  {| delimiter := 0x2C; quotechar := Some 0x22%N; escapechar := None;
     doublequote := true; skipinitialspace := false; strict := false |}.

(** What the machine is fed: a character of the line, or the mark at the
    end of the line. *)
Inductive input : Type :=
| Char (c : N)
| EOL.

Record Reader : Type := {
  state : ParserState;
  fields : list str;      (* the fields of the record that are complete *)
  field : str }.          (* the field that is being read *)

Definition field_limit : N := 131072.

Definition parse_reset : Reader :=
  {| state := START_RECORD; fields := []; field := [] |}.

Definition set_state (self : Reader) (s : ParserState) : Reader :=
  {| state := s; fields := fields self; field := field self |}.

Definition parse_save_field (self : Reader) : Reader :=
  {| state := state self; fields := fields self ++ [field self];
     field := [] |}.

Definition parse_add_char (self : Reader) (c : N) : outcome Reader :=
  if (field_limit <=? N.of_nat (length (field self)))%N
  then Raise (csv_Error "field larger than field limit (131072)")
  else Return {| state := state self; fields := fields self;
                 field := field self ++ [c] |}.

Definition is_char (c : N) (x : option N) : bool :=
  match x with
  | Some x => (c =? x)%N
  | None => false
  end.

Definition newline (c : N) : bool := (c =? LF)%N || (c =? CR)%N.

(** [parse_add_char] and then a change of state. *)
Definition add_char_then (self : Reader) (c : N) (s : ParserState)
  : outcome Reader :=
  match parse_add_char self c with
  | Return self' => Return (set_state self' s)
  | Raise e => Raise e
  end.

(** The case START_FIELD of [parse_process_char]. *)
Definition start_field (d : Dialect) (self : Reader) (i : input)
  : outcome Reader :=
  match i with
  | EOL => Return (set_state (parse_save_field self) START_RECORD)
  | Char c =>
      if newline c then Return (set_state (parse_save_field self) EAT_CRNL)
      else if is_char c (quotechar d)
      then Return (set_state self IN_QUOTED_FIELD)
      else if is_char c (escapechar d)
      then Return (set_state self ESCAPED_CHAR)
      else if (c =? 0x20)%N && skipinitialspace d then Return self
      else if (c =? delimiter d)%N then Return (parse_save_field self)
      else add_char_then self c IN_FIELD
  end.

(** The case IN_FIELD of [parse_process_char]. *)
Definition in_field (d : Dialect) (self : Reader) (i : input)
  : outcome Reader :=
  match i with
  | EOL => Return (set_state (parse_save_field self) START_RECORD)
  | Char c =>
      if newline c then Return (set_state (parse_save_field self) EAT_CRNL)
      else if is_char c (escapechar d)
      then Return (set_state self ESCAPED_CHAR)
      else if (c =? delimiter d)%N
      then Return (set_state (parse_save_field self) START_FIELD)
      else parse_add_char self c
  end.

Definition parse_process_char (d : Dialect) (self : Reader) (i : input)
  : outcome Reader :=
  match state self with
  | START_RECORD =>
      match i with
      | EOL => Return self
      | Char c =>
          if newline c then Return (set_state self EAT_CRNL)
          else start_field d (set_state self START_FIELD) i
      end
  | START_FIELD => start_field d self i
  | ESCAPED_CHAR =>
      match i with
      | EOL => add_char_then self LF IN_FIELD
      | Char c =>
          if newline c then add_char_then self c AFTER_ESCAPED_CRNL
          else add_char_then self c IN_FIELD
      end
  | AFTER_ESCAPED_CRNL =>
      match i with
      | EOL => Return self
      | Char _ => in_field d self i
      end
  | IN_FIELD => in_field d self i
  | IN_QUOTED_FIELD =>
      match i with
      | EOL => Return self
      | Char c =>
          if is_char c (escapechar d)
          then Return (set_state self ESCAPE_IN_QUOTED_FIELD)
          else if is_char c (quotechar d)
          then Return (set_state self (if doublequote d
                                       then QUOTE_IN_QUOTED_FIELD
                                       else IN_FIELD))
          else parse_add_char self c
      end
  | ESCAPE_IN_QUOTED_FIELD =>
      match i with
      | EOL => add_char_then self LF IN_QUOTED_FIELD
      | Char c => add_char_then self c IN_QUOTED_FIELD
      end
  | QUOTE_IN_QUOTED_FIELD =>
      match i with
      | EOL => Return (set_state (parse_save_field self) START_RECORD)
      | Char c =>
          if is_char c (quotechar d)
          then add_char_then self c IN_QUOTED_FIELD
          else if (c =? delimiter d)%N
          then Return (set_state (parse_save_field self) START_FIELD)
          else if newline c
          then Return (set_state (parse_save_field self) EAT_CRNL)
          else if strict d
          then Raise (csv_Error "delimiter expected after quotechar")
          else add_char_then self c IN_FIELD
      end
  | EAT_CRNL =>
      match i with
      | EOL => Return (set_state self START_RECORD)
      | Char c =>
          if newline c then Return self
          else Raise (csv_Error "new-line character seen in unquoted field")
      end
  end.

(** The characters of one line. *)
Fixpoint parse_chars (d : Dialect) (self : Reader) (line : str)
  : outcome Reader :=
  match line with
  | [] => Return self
  | c :: line' =>
      match parse_process_char d self (Char c) with
      | Return self' => parse_chars d self' line'
      | Raise e => Raise e
      end
  end.

(** One line and the mark at its end. *)
Definition parse_line (d : Dialect) (self : Reader) (line : str)
  : outcome Reader :=
  match parse_chars d self line with
  | Return self' => parse_process_char d self' EOL
  | Raise e => Raise e
  end.

Definition state_eqb (s1 s2 : ParserState) : bool :=
  match s1, s2 with
  | START_RECORD, START_RECORD | START_FIELD, START_FIELD
  | ESCAPED_CHAR, ESCAPED_CHAR | IN_FIELD, IN_FIELD
  | IN_QUOTED_FIELD, IN_QUOTED_FIELD
  | ESCAPE_IN_QUOTED_FIELD, ESCAPE_IN_QUOTED_FIELD
  | QUOTE_IN_QUOTED_FIELD, QUOTE_IN_QUOTED_FIELD | EAT_CRNL, EAT_CRNL
  | AFTER_ESCAPED_CRNL, AFTER_ESCAPED_CRNL => true
  | _, _ => false
  end.

Definition cons_row (row : list str) (r : outcome (list (list str)))
  : outcome (list (list str)) :=
  match r with
  | Return rows => Return (row :: rows)
  | Raise e => Raise e
  end.

(** [list(reader)]: the records that the reader yields until the lines run
    out.  The reader takes lines until the machine is back in START_RECORD,
    yields the fields and starts afresh.  When the lines run out inside a
    record, the record is yielded if a field has been begun or a quote is
    open (an error in a strict dialect), and dropped otherwise. *)
Fixpoint records (d : Dialect) (self : Reader) (lines : list str)
  : outcome (list (list str)) :=
  match lines with
  | [] =>
      if negb (length (field self) =? 0)
         || state_eqb (state self) IN_QUOTED_FIELD
      then if strict d then Raise (csv_Error "unexpected end of data")
           else Return [fields (parse_save_field self)]
      else Return []
  | line :: lines' =>
      match parse_line d self line with
      | Raise e => Raise e
      | Return self' =>
          if state_eqb (state self') START_RECORD
          then cons_row (fields self') (records d parse_reset lines')
          else records d self' lines'
      end
  end.

(** [list(csv.reader(lines, delimiter=delimiter))]: the [excel] dialect
    with its delimiter replaced; the delimiter has to be one character. *)
Definition reader (lines : list str) (delimiter : str)
  : outcome (list (list str)) :=
  match delimiter with
  | [c] =>
      records {| delimiter := c; quotechar := quotechar excel;
                 escapechar := escapechar excel;
                 doublequote := doublequote excel;
                 skipinitialspace := skipinitialspace excel;
                 strict := strict excel |}
              parse_reset lines
  | _ => Raise (TypeError "delimiter must be a 1-character string")
  end.

End csv.

(** ** JSON *)

(** A decoded JSON document; a number is kept as its literal. *)
#[local] Unset Elimination Schemes.
Inductive JSON : Type :=
| JNull
| JBool (x : bool)
| JNumber (literal : str)
| JString (s : str)
| JArray (items : list JSON)
| JObject (members : list (str * JSON)).
#[local] Set Elimination Schemes.

(** ** The module [async_url_downloads] *)

(** The loop of [request_url_response_content] and [request_url_csv_list]:
<<
    while True:
        chunk = await response.content.read(1024)
        b_array.extend(chunk)
        if not chunk:
            break
>>
    It ends in [b_array]. *)
Equations? read_chunks (content : aiohttp.StreamReader) (b_array : bytes)
  : coroutine bytes by wf (aiohttp.unread content) lt :=
read_chunks content b_array with inspect (aiohttp.read_nowait 1024 content) := {
  | exist _ ([], _) _ => Await (Done (Return (b_array ++ [])))
  | exist _ (x :: chunk, content') H =>
      Await (read_chunks content' (b_array ++ x :: chunk)) }.
Proof. eapply aiohttp.read_nowait_unread, H. Qed.

(** The chunks that successive [read(1024)] calls return, up to and without
    the empty one that marks the end of the stream. *)
Equations? chunks_read (content : aiohttp.StreamReader)
  : list bytes by wf (aiohttp.unread content) lt :=
chunks_read content with inspect (aiohttp.read_nowait 1024 content) := {
  | exist _ ([], _) _ => []
  | exist _ (x :: chunk, content') H => (x :: chunk) :: chunks_read content' }.
Proof. eapply aiohttp.read_nowait_unread, H. Qed.

Section async_url_downloads.

(** The network that the sessions of both client libraries talk to. *)
Variable network : Network.

(** The decoder behind [response.json()]. *)
Variable loads : bytes -> outcome JSON.

(** Asynchronously download URL response content; if the response is
    invalid, return an empty result. *)
Definition request_url_response_content
    (session : aiohttp.ClientSession) (url : string) : coroutine bytes :=
  Await
    match aiohttp.get session url with
    | Raise e => Done (Raise e)
    | Return response =>
        if aiohttp.ok response
        then read_chunks (aiohttp.content response) []
        else Done (Return [])
    end.

(** [await response.json()]: read the body and decode it. *)
Definition json (response : aiohttp.ClientResponse) : coroutine JSON :=
  Await (Done (loads (concat (aiohttp.content response)))).

(** Asynchronously download URL response content as JSON; if the response
    is invalid, return an empty result. *)
Definition request_url_response_json
    (session : aiohttp.ClientSession) (url : string) : coroutine JSON :=
  Await
    match aiohttp.get session url with
    | Raise e => Done (Raise e)
    | Return response =>
        if aiohttp.ok response
        then bind (json response) (fun response_json =>
               Done (Return response_json))
        else Done (Return (JObject []))
    end.

(** Asynchronously download csv-formatted text and return it as a list of
    lists, one list per row; if the response is invalid, return an empty
    result. *)
Definition request_url_csv_list
    (session : aiohttp.ClientSession) (url : string) (delimiter : str)
  : coroutine (list (list str)) :=
  Await
    match aiohttp.get session url with
    | Raise e => Done (Raise e)
    | Return response =>
        if aiohttp.ok response
        then bind (read_chunks (aiohttp.content response) [])
               (fun b_array =>
                  match utf_8.decode b_array with
                  | Raise e => Done (Raise e)
                  | Return decoded_content =>
                      Done (csv.reader (splitlines decoded_content) delimiter)
                  end)
        else Done (Return [[ [] ]])
    end.

(** The default of the parameter [delimiter]. *)
Definition default_delimiter : str := u ",".

(** [aiohttp.ClientSession()] *)
Definition open_session : aiohttp.ClientSession :=
  {| aiohttp.connector := network |}.

(** Returns asynchronously-downloaded URL responses: one task per URL
    under one shared session, gathered by the event loop [loop].  The extra
    arguments that the source passes on to [request_url] are the ones that
    [request_url] is applied to here already. *)
Definition request_url_responses {A} (loop : list nat) (urls : list string)
    (request_url : aiohttp.ClientSession -> string -> coroutine A)
  : outcome (list A) :=
  let session := open_session in
  let tasks :=
    (fun url => asyncio.ensure_future (request_url session url)) <$> urls in
  asyncio.gather loop tasks.

(** The loop of [sequential_downloads], with the list built so far. *)
Fixpoint sequential_loop (urls : list string) (downloads : list bytes)
  : outcome (list bytes) :=
  match urls with
  | [] => Return downloads
  | url :: urls' =>
      match requests.get network url with
      | Raise e => Raise e
      | Return response =>
          if requests.ok response
          then sequential_loop urls'
                 (downloads ++ [requests.content response])
          else sequential_loop urls' downloads
      end
  end.

(** Sequentially download a series of URLs. *)
Definition sequential_downloads (urls : list string) : outcome (list bytes) :=
  sequential_loop urls [].

(** Asynchronously download a series of URLs; [loop] is the event loop
    that [asyncio.run] starts. *)
Definition asynchronous_downloads (loop : list nat) (urls : list string)
  : outcome (list bytes) :=
  request_url_responses loop urls request_url_response_content.

(** What the unit of work for [url] yields: the outcome of the processing
    function applied to the dispatcher's session and [url]. *)
Definition unit_outcome {A}
    (request_url : aiohttp.ClientSession -> string -> coroutine A)
    (url : string) : outcome A :=
  value (request_url open_session url).

End async_url_downloads.

(** ** [main] *)

(** What [main] prints, one constructor per [print]: the two lines with an
    elapsed time, the blank lines, the two lines with the first item of a
    list, and the verdict. *)
Inductive printed (T : Type) : Type :=
| Elapsed_sequential (elapsed_time : T)
| Elapsed_asynchronous (elapsed_time : T)
| Blank
| First_sequential (item : bytes)
| First_asynchronous (item : bytes)
| Identical
| Not_identical.
Arguments Elapsed_sequential {T} elapsed_time.
Arguments Elapsed_asynchronous {T} elapsed_time.
Arguments Blank {T}.
Arguments First_sequential {T} item.
Arguments First_asynchronous {T} item.
Arguments Identical {T}.
Arguments Not_identical {T}.

(** [l1 == l2] on lists. *)
Fixpoint eq_list {A} (eq : A -> A -> bool) (l1 l2 : list A) : bool :=
  match l1, l2 with
  | [], [] => true
  | x1 :: l1', x2 :: l2' => eq x1 x2 && eq_list eq l1' l2'
  | _, _ => false
  end.

(** [downloads01 == downloads02] on lists of [bytearray]. *)
Definition eq_downloads (downloads01 downloads02 : list bytes) : bool :=
  eq_list (eq_list Byte.eqb) downloads01 downloads02.

(** [IndexError], raised by [l[0]] on an empty list. *)
Definition IndexError : exn := Exception "IndexError".

Section main.

(** The readings of the clock: [time k] is what the call number [k] of
    [time.time()] returns, and [minus] is the difference of two readings. *)
Variable T : Type.
Variable time : nat -> T.
Variable minus : T -> T -> T.

Variable network : Network.

(** The URL that [main] downloads 50 times. *)
Definition main_url : string := "https://jsonplaceholder.typicode.com/todos/1".

(** Compare sequential and asynchronous download speeds of a batch of URLs.
    The result is what has been printed and how the call ends; [loop] is the
    event loop of the asynchronous run. *)
Definition main (loop : list nat) : list (printed T) * outcome unit :=
  let urls := replicate 50 main_url in
  let start_time := time 0 in
  match sequential_downloads network urls with
  | Raise e => ([], Raise e)
  | Return downloads01 =>
      let elapsed_time := minus (time 1) start_time in
      let out := [Elapsed_sequential elapsed_time] in
      let start_time := time 2 in
      match asynchronous_downloads network loop urls with
      | Raise e => (out, Raise e)
      | Return downloads02 =>
          let elapsed_time := minus (time 3) start_time in
          let out := out ++ [Elapsed_asynchronous elapsed_time; Blank] in
          match downloads01 !! 0 with
          | None => (out, Raise IndexError)
          | Some item01 =>
              let out := out ++ [First_sequential item01; Blank] in
              match downloads02 !! 0 with
              | None => (out, Raise IndexError)
              | Some item02 =>
                  let out := out ++ [First_asynchronous item02; Blank] in
                  if eq_downloads downloads01 downloads02
                  then (out ++ [Identical], Return tt)
                  else (out ++ [Not_identical], Return tt)
              end
          end
      end
  end.

End main.

(** ** Rows of a text without quotes *)

(** [line.split(sep)], with the field that is being read in [field]. *)
Fixpoint split_from (sep : N) (field line : str) : list str :=
  match line with
  | [] => [field]
  | c :: line' =>
      if (c =? sep)%N then field :: split_from sep [] line'
      else split_from sep (field ++ [c]) line'
  end.

(** The row of a line without quotes: no field for an empty line, and else
    the parts of the line between the delimiters. *)
Definition plain_row (sep : N) (line : str) : list str :=
  match line with
  | [] => []
  | _ => split_from sep [] line
  end.

(** The character that opens and closes a quoted field. *)
Definition quote : N := 0x22.

(** The dialect that [csv.reader] builds for the delimiter [sep]. *)
Definition dialect_of (sep : N) : csv.Dialect :=
  {| csv.delimiter := sep;
     csv.quotechar := csv.quotechar csv.excel;
     csv.escapechar := csv.escapechar csv.excel;
     csv.doublequote := csv.doublequote csv.excel;
     csv.skipinitialspace := csv.skipinitialspace csv.excel;
     csv.strict := csv.strict csv.excel |}.

(** A line that the reader takes as it stands: no quote, no CR or LF, and
    not longer than a field may be. *)
Definition plain_line (line : str) : Prop :=
  Forall (fun c => c <> quote /\ csv.newline c = false) line /\
  (N.of_nat (length line) <= csv.field_limit)%N.

(** The states that a reader without an escape character can be in. *)
Definition unescaped (s : csv.ParserState) : Prop :=
  match s with
  | csv.ESCAPED_CHAR | csv.ESCAPE_IN_QUOTED_FIELD | csv.AFTER_ESCAPED_CRNL =>
      False
  | _ => True
  end.

(** Every character that the reader holds satisfies [P]. *)
Definition holds_only (P : N -> Prop) (self : csv.Reader) : Prop :=
  Forall (Forall P) (csv.fields self) /\ Forall P (csv.field self) /\
  unescaped (csv.state self).

(** ** A sample network *)

(** A server with a two-line table that arrives in four segments, a
    one-line table with semicolons, an empty page and a page that does not
    exist; every other URL cannot be reached. *)
Definition sample_network : Network := fun url =>
  if String.eqb url "http://host/rows" then
    Some {| reply_ok := true;
            reply_body := [b "a,"; b "b"; [Byte.x0a]; b "c,d"] |}
  else if String.eqb url "http://host/semi" then
    Some {| reply_ok := true; reply_body := [b "a;b"] |}
  else if String.eqb url "http://host/empty" then
    Some {| reply_ok := true; reply_body := [] |}
  else if String.eqb url "http://host/missing" then
    Some {| reply_ok := false; reply_body := [b "Not Found"] |}
  else None.

Definition sample_urls : list string :=
  ["http://host/rows"; "http://host/missing"; "http://host/semi";
   "http://host/missing"; "http://host/empty"]%string.

(** A schedule that runs the third task to its end, then the second, the
    fourth and the fifth, and the first one last. *)
Definition sample_loop : list nat := [2; 2; 2; 2; 1; 1; 1; 1; 1; 1; 1].

(** A server that answers every request with a table of one quoted field
    that runs over two lines: a quote, [a], a line feed, [b], a quote. *)
Definition quoted_network : Network := fun url =>
  Some {| reply_ok := true;
          reply_body := [[Byte.x22; Byte.x61; Byte.x0a; Byte.x62; Byte.x22]] |}.

(** A server that has one page, which is not UTF-8; every other URL cannot
    be reached. *)
Definition faulty_network : Network := fun url =>
  if String.eqb url "http://host/binary" then
    Some {| reply_ok := true; reply_body := [[Byte.xff; Byte.xfe]] |}
  else None.

(** A server that answers the URL of [main] with the given status. *)
Definition todo_network (ok : bool) : Network := fun url =>
  if String.eqb url main_url then
    Some {| reply_ok := ok; reply_body := [b "{}"] |}
  else None.

(** A decoder that accepts nothing. *)
Definition no_json (data : bytes) : outcome JSON := Raise JSONDecodeError.

(** * Properties *)

(** ** Coroutines *)

Lemma value_bind {A B} (c : coroutine A) (f : A -> coroutine B) :
  value (bind c f) =
  match value c with
  | Return a => value (f a)
  | Raise e => Raise e
  end.
Proof.
  induction c as [[a|e]|k IH]; simpl; auto.
Qed.

(** ** The event loop *)

Module gather_facts.
Import asyncio.

Lemma ready_from_nil {A} i (tasks : list (Task A)) :
  ready_from i tasks = [] -> Forall finished tasks.
Proof.
  revert i. induction tasks as [|[c|r] tasks IH]; intros i; simpl.
  - constructor.
  - discriminate.
  - intros H. constructor; [exact I | eapply IH, H].
Qed.

Lemma select_None {A} loop (tasks : list (Task A)) :
  select loop tasks = None -> Forall finished tasks.
Proof.
  unfold select, ready. intros H%lookup_ge_None.
  apply (ready_from_nil 0).
  destruct (ready_from 0 tasks) as [|p ps] eqn:E; [done|].
  exfalso. simpl length in H.
  pose proof (Nat.mod_upper_bound (hd 0 loop) (S (length ps))). lia.
Qed.

(** Resuming a task does not change what it yields in the end. *)
Lemma task_outcome_insert {A} (tasks : list (Task A)) i t t' :
  tasks !! i = Some t -> task_outcome t' = task_outcome t ->
  task_outcome <$> <[i:=t']> tasks = task_outcome <$> tasks.
Proof.
  intros Hi Ht. rewrite list_fmap_insert, Ht.
  apply list_insert_id. rewrite list_lookup_fmap, Hi. done.
Qed.

Lemma results_spec {A} (tasks : list (Task A)) :
  Forall finished tasks ->
  match results tasks with
  | Return l => task_outcome <$> tasks = Return <$> l
  | Raise e => Raise e ∈ task_outcome <$> tasks
  end.
Proof.
  induction 1 as [|[c|[a|e]] tasks Hf _ IH]; csimpl.
  - done.
  - destruct Hf.
  - destruct (results tasks) as [l|e]; csimpl.
    + rewrite IH. done.
    + apply elem_of_cons. right. exact IH.
  - apply elem_of_cons. left. done.
Qed.

(** The gathered list holds what each task yields, position by position;
    an exception that comes out of [gather] is one that a task raises. *)
Lemma gather_spec {A} loop (tasks : list (Task A)) :
  match gather loop tasks with
  | Return l => task_outcome <$> tasks = Return <$> l
  | Raise e => Raise e ∈ task_outcome <$> tasks
  end.
Proof.
  funelim (gather loop tasks);
    try match goal with
        | Hs : select _ _ = Some _ |- _ => pose proof (select_Some _ _ _ _ Hs)
        end.
  - match goal with
    | Hs : tasks !! i = Some _ |- _ =>
        erewrite <- (task_outcome_insert tasks i);
          [eassumption | exact Hs | done]
    end.
  - apply list_elem_of_lookup. exists i.
    rewrite list_lookup_fmap.
    match goal with Hs : tasks !! i = Some _ |- _ => rewrite Hs end. done.
  - match goal with
    | Hs : tasks !! i = Some _ |- _ =>
        erewrite <- (task_outcome_insert tasks i);
          [eassumption | exact Hs | done]
    end.
  - apply results_spec, select_None with loop. assumption.
Qed.

End gather_facts.

(** ** Draining a response body *)

Lemma read_nowait_eof n content content' :
  aiohttp.read_nowait (S n) content = ([], content') -> concat content = [].
Proof.
  induction content as [|[|x data] rest IH]; simpl; try done.
Qed.

(** The loop returns the buffer followed by everything that was unread. *)
Lemma read_chunks_value content b_array :
  value (read_chunks content b_array) = Return (b_array ++ concat content).
Proof.
  funelim (read_chunks content b_array); simpl.
  - match goal with
    | Hr : aiohttp.read_nowait _ _ = ([], _) |- _ =>
        rewrite (read_nowait_eof _ _ _ Hr)
    end. done.
  - match goal with
    | IH : value _ = _, Hr : aiohttp.read_nowait _ _ = (_ :: _, _) |- _ =>
        rewrite IH, (aiohttp.read_nowait_concat _ _ _ _ Hr), <- app_assoc
    end. done.
Qed.

(** The chunks, put together again, are the unread data. *)
Lemma chunks_read_concat content :
  concat (chunks_read content) = concat content.
Proof.
  funelim (chunks_read content); simpl.
  - match goal with
    | Hr : aiohttp.read_nowait _ _ = ([], _) |- _ =>
        rewrite (read_nowait_eof _ _ _ Hr)
    end. done.
  - match goal with
    | IH : concat _ = _, Hr : aiohttp.read_nowait _ _ = (_ :: _, _) |- _ =>
        rewrite IH, (aiohttp.read_nowait_concat _ _ _ _ Hr)
    end. done.
Qed.

(** What the byte-content reader yields, by the response it gets. *)
Lemma request_url_response_content_value session url :
  value (request_url_response_content session url) =
  match aiohttp.get session url with
  | Raise e => Raise e
  | Return response =>
      if aiohttp.ok response
      then Return (concat (aiohttp.content response))
      else Return []
  end.
Proof.
  unfold request_url_response_content. simpl.
  destruct (aiohttp.get session url) as [response|e]; [|done].
  destruct (aiohttp.ok response); [|done].
  apply read_chunks_value.
Qed.

(** ** The batch dispatcher *)

Section dispatcher.

Context {A : Type} (network : Network).
Context (request_url : aiohttp.ClientSession -> string -> coroutine A).

(** Whatever the schedule, the dispatcher returns the list of what the
    units of work yield, in the order of the URLs, or raises what one of
    them raises. *)
Lemma request_url_responses_spec loop urls :
  match request_url_responses network loop urls request_url with
  | Return l => unit_outcome network request_url <$> urls = Return <$> l
  | Raise e =>
      exists url, url ∈ urls /\ unit_outcome network request_url url = Raise e
  end.
Proof.
  unfold request_url_responses.
  pose proof (gather_facts.gather_spec loop
    ((fun url => asyncio.ensure_future
                   (request_url (open_session network) url)) <$> urls))
    as H.
  rewrite <- list_fmap_compose in H.
  destruct (asyncio.gather _ _) as [l|e]; [exact H|].
  apply list_elem_of_fmap in H as (url & Hv & Hin).
  exists url. split; [exact Hin | symmetry; exact Hv].
Qed.

(** C1. Order preservation: under every schedule of the event loop, the
    dispatcher returns [results] exactly when [results] has one entry per
    URL and, for every index [i], [results[i]] is the value that the
    processing function produces for [urls[i]]. *)
Theorem request_url_responses_order loop urls results :
  request_url_responses network loop urls request_url = Return results <->
  length results = length urls /\
  forall i url, urls !! i = Some url ->
    exists v, results !! i = Some v /\
              unit_outcome network request_url url = Return v.
Proof.
  pose proof (request_url_responses_spec loop urls) as Hspec.
  split.
  - intros Hret. rewrite Hret in Hspec. split.
    + apply (f_equal length) in Hspec. rewrite !length_fmap in Hspec. done.
    + intros i url Hi.
      apply (f_equal (fun l => l !! i)) in Hspec.
      rewrite !list_lookup_fmap, Hi in Hspec.
      destruct (results !! i) as [v|]; simplify_eq/=.
      exists v. done.
  - intros [Hlen Hidx].
    destruct (request_url_responses _ _ _ _) as [l|e].
    + f_equal. apply list_eq. intros i.
      apply (f_equal (fun l => l !! i)) in Hspec.
      rewrite !list_lookup_fmap in Hspec.
      destruct (urls !! i) as [url|] eqn:Hi.
      * destruct (Hidx i url Hi) as (v & Hv & Hval).
        rewrite Hv. destruct (l !! i); simplify_eq/=. congruence.
      * apply lookup_ge_None in Hi.
        rewrite (proj2 (lookup_ge_None results i)) by lia.
        destruct (l !! i); simplify_eq/=. done.
    + destruct Hspec as (url & Hin & Hraise).
      apply list_elem_of_lookup in Hin as [i Hi].
      destruct (Hidx i url Hi) as (v & _ & Hval). congruence.
Qed.

(** C4. Fail fast: if the processing function raises for a URL of the
    batch, the dispatcher raises too, whatever the schedule: it returns no
    list, and the exception it raises is one that the processing function
    raises for a URL of the batch.  When [e] is the only exception raised
    in the batch, the dispatcher raises [e]. *)
Theorem request_url_responses_fail_fast loop urls url e :
  url ∈ urls -> unit_outcome network request_url url = Raise e ->
  (exists url' e',
     url' ∈ urls /\ unit_outcome network request_url url' = Raise e' /\
     request_url_responses network loop urls request_url = Raise e') /\
  ((forall url' e',
      url' ∈ urls -> unit_outcome network request_url url' = Raise e' ->
      e' = e) ->
     request_url_responses network loop urls request_url = Raise e).
Proof.
  intros Hin Hraise.
  pose proof (request_url_responses_spec loop urls) as Hspec.
  destruct (request_url_responses _ _ _ _) as [l|e'].
  - exfalso.
    apply list_elem_of_lookup in Hin as [i Hi].
    apply (f_equal (fun l => l !! i)) in Hspec.
    rewrite !list_lookup_fmap, Hi in Hspec.
    destruct (l !! i); simplify_eq/=. congruence.
  - destruct Hspec as (url' & Hin' & Hraise'). split.
    + exists url', e'. done.
    + intros Hall. f_equal. eapply Hall; eassumption.
Qed.

(** Without an exception in the batch the dispatcher returns one entry per
    URL. *)
Lemma request_url_responses_returns loop urls :
  (forall url, url ∈ urls ->
     exists v, unit_outcome network request_url url = Return v) ->
  exists results,
    request_url_responses network loop urls request_url = Return results /\
    length results = length urls.
Proof.
  intros Hok.
  pose proof (request_url_responses_spec loop urls) as Hspec.
  destruct (request_url_responses _ _ _ _) as [l|e].
  - exists l. split; [done|].
    apply (f_equal length) in Hspec. rewrite !length_fmap in Hspec. done.
  - destruct Hspec as (url & Hin & Hraise).
    destruct (Hok url Hin) as [v Hv]. congruence.
Qed.

End dispatcher.

(** C2. Length invariant: a list that the dispatcher returns has exactly one
    entry per URL; the dispatcher returns one, under every schedule, when no
    unit of work raises; and with the byte-content reader that is so
    whenever every URL gets an HTTP response, whatever the statuses of the
    responses. *)
Theorem request_url_responses_length network loop urls :
  (forall A (request_url : aiohttp.ClientSession -> string -> coroutine A)
          results,
     request_url_responses network loop urls request_url = Return results ->
     length results = length urls) /\
  (forall A (request_url : aiohttp.ClientSession -> string -> coroutine A),
     (forall url, url ∈ urls ->
        exists v, unit_outcome network request_url url = Return v) ->
     exists results,
       request_url_responses network loop urls request_url = Return results /\
       length results = length urls) /\
  ((forall url, url ∈ urls -> is_Some (network url)) ->
   exists results,
     request_url_responses network loop urls request_url_response_content
       = Return results /\
     length results = length urls).
Proof.
  split; [|split].
  - intros A request_url results Hret.
    pose proof (request_url_responses_spec network request_url loop urls)
      as Hspec.
    rewrite Hret in Hspec.
    apply (f_equal length) in Hspec. rewrite !length_fmap in Hspec. done.
  - intros A request_url. apply request_url_responses_returns.
  - intros Hnet. apply request_url_responses_returns.
    intros url Hin. unfold unit_outcome.
    rewrite request_url_response_content_value.
    unfold aiohttp.get. simpl.
    destruct (Hnet url Hin) as [reply ->]. simpl.
    destruct (reply_ok reply); eauto.
Qed.

(** ** The response readers *)

Lemma request_url_csv_list_value session url delimiter :
  value (request_url_csv_list session url delimiter) =
  match aiohttp.get session url with
  | Raise e => Raise e
  | Return response =>
      if aiohttp.ok response
      then match utf_8.decode (concat (aiohttp.content response)) with
           | Raise e => Raise e
           | Return decoded_content =>
               csv.reader (splitlines decoded_content) delimiter
           end
      else Return [[ [] ]]
  end.
Proof.
  unfold request_url_csv_list. simpl.
  destruct (aiohttp.get session url) as [response|e]; [|done].
  destruct (aiohttp.ok response); [|done].
  rewrite value_bind, read_chunks_value. simpl.
  destruct (utf_8.decode _); done.
Qed.

(** C3. Empty on failure: for a response with a non-success status the
    byte-content reader returns an empty buffer, the structured reader an
    empty mapping and the row-table reader the table of one row with one
    empty field; none of them raises. *)
Theorem readers_empty_on_failure loads session url response delimiter :
  aiohttp.get session url = Return response ->
  aiohttp.ok response = false ->
  value (request_url_response_content session url) = Return [] /\
  value (request_url_response_json loads session url) = Return (JObject []) /\
  value (request_url_csv_list session url delimiter) = Return [[ [] ]].
Proof.
  intros Hget Hok. unfold request_url_response_content,
    request_url_response_json, request_url_csv_list. simpl.
  rewrite Hget, Hok. done.
Qed.

(** C7. Full body: for a response with a success status the byte-content
    reader returns the chunks of the successive reads up to the empty one,
    put together in order, and that is the whole body. *)
Theorem request_url_response_content_full_body session url response :
  aiohttp.get session url = Return response ->
  aiohttp.ok response = true ->
  value (request_url_response_content session url)
    = Return (concat (chunks_read (aiohttp.content response))) /\
  concat (chunks_read (aiohttp.content response))
    = concat (aiohttp.content response).
Proof.
  intros Hget Hok. rewrite request_url_response_content_value, Hget, Hok.
  rewrite chunks_read_concat. done.
Qed.

(** C10. The byte-content reader returns the same value, an empty buffer,
    for a response with a non-success status and for a successful response
    with an empty body. *)
Theorem request_url_response_content_ambiguous
    session url_failed url_empty failed empty :
  aiohttp.get session url_failed = Return failed ->
  aiohttp.ok failed = false ->
  aiohttp.get session url_empty = Return empty ->
  aiohttp.ok empty = true ->
  concat (aiohttp.content empty) = [] ->
  value (request_url_response_content session url_failed)
    = value (request_url_response_content session url_empty) /\
  value (request_url_response_content session url_empty) = Return [].
Proof.
  intros Hget1 Hok1 Hget2 Hok2 Hbody.
  rewrite !request_url_response_content_value.
  rewrite Hget1, Hok1, Hget2, Hok2, Hbody. done.
Qed.

(** C8. Row table: a successful response whose body decodes to the two
    lines [a,b] and [c,d] gives, with the delimiter [,], the rows
    [a; b] and [c; d]. *)
Theorem request_url_csv_list_rows session url response :
  aiohttp.get session url = Return response ->
  aiohttp.ok response = true ->
  utf_8.decode (concat (aiohttp.content response))
    = Return (u "a,b" ++ [LF] ++ u "c,d") ->
  value (request_url_csv_list session url (u ","))
    = Return [[u "a"; u "b"]; [u "c"; u "d"]].
Proof.
  intros Hget Hok Hdecode.
  rewrite request_url_csv_list_value, Hget, Hok, Hdecode.
  vm_compute. reflexivity.
Qed.

(** C9. Delimiter: a successful response whose body decodes to [a;b] gives
    the row [a; b] with the delimiter [;] and the row of the single field
    [a;b] with the default delimiter. *)
Theorem request_url_csv_list_delimiter session url response :
  aiohttp.get session url = Return response ->
  aiohttp.ok response = true ->
  utf_8.decode (concat (aiohttp.content response)) = Return (u "a;b") ->
  value (request_url_csv_list session url (u ";")) = Return [[u "a"; u "b"]] /\
  value (request_url_csv_list session url default_delimiter)
    = Return [[u "a;b"]].
Proof.
  intros Hget Hok Hdecode.
  rewrite !request_url_csv_list_value, Hget, Hok, Hdecode.
  split; vm_compute; reflexivity.
Qed.

(** ** The two runners *)

Section runners.

Context (network : Network).

Lemma sequential_loop_spec urls downloads :
  (forall url, url ∈ urls -> is_Some (network url)) ->
  sequential_loop network urls downloads
    = Return (downloads ++ omap (success_content network) urls).
Proof.
  revert downloads. induction urls as [|url urls IH]; intros downloads Hnet.
  - simpl. rewrite app_nil_r. done.
  - simpl. unfold requests.get, success_content.
    destruct (Hnet url) as [reply Hreply]; [left|].
    rewrite Hreply. simpl.
    assert (forall url', url' ∈ urls -> is_Some (network url')) as Hnet'
      by (intros url' Hin; apply Hnet; right; exact Hin).
    destruct (reply_ok reply); rewrite IH by exact Hnet'.
    + rewrite <- app_assoc. done.
    + done.
Qed.

Lemma success_content_length urls :
  (forall url, url ∈ urls -> is_Some (network url)) ->
  length (omap (success_content network) urls)
    + length (filter (fun url => failed network url) urls)
  = length urls.
Proof.
  induction urls as [|url urls IH]; intros Hnet; [done|].
  assert (forall url', url' ∈ urls -> is_Some (network url')) as Hnet'
    by (intros url' Hin; apply Hnet; right; exact Hin).
  specialize (IH Hnet').
  destruct (Hnet url) as [reply Hreply]; [left|].
  rewrite filter_cons.
  destruct (decide (failed network url)) as [Hf|Hf];
    unfold failed in Hf; csimpl; unfold success_content at 1;
    rewrite Hreply in *; destruct (reply_ok reply); csimpl in *;
    try done; lia.
Qed.

(** C5. The sequential runner drops failed requests: when every URL gets
    an HTTP response, the runner returns the bodies of the successful
    responses, in the order of the URLs and with nothing in the place of a
    failed one, so that the length of its list is the number of URLs less
    the number of URLs with a non-success status. *)
Theorem sequential_downloads_drops_failures urls :
  (forall url, url ∈ urls -> is_Some (network url)) ->
  exists downloads,
    sequential_downloads network urls = Return downloads /\
    downloads = omap (success_content network) urls /\
    length downloads
      = length urls - length (filter (fun url => failed network url) urls).
Proof.
  intros Hnet. exists (omap (success_content network) urls).
  split; [|split].
  - unfold sequential_downloads. rewrite sequential_loop_spec by exact Hnet.
    done.
  - done.
  - pose proof (success_content_length urls Hnet). lia.
Qed.

Lemma unit_outcome_success url content :
  success_content network url = Some content ->
  unit_outcome network request_url_response_content url = Return content.
Proof.
  unfold success_content, unit_outcome. intros Hsc.
  rewrite request_url_response_content_value. unfold aiohttp.get. simpl.
  destruct (network url) as [reply|]; [|done]. simpl.
  destruct (reply_ok reply); simplify_eq/=. done.
Qed.

(** When every request succeeds, the concurrent runner returns the bodies
    in the order of the URLs, under every schedule. *)
Lemma asynchronous_downloads_all_success loop urls :
  (forall url, url ∈ urls -> is_Some (success_content network url)) ->
  asynchronous_downloads network loop urls
    = Return (omap (success_content network) urls).
Proof.
  intros Hsc. unfold asynchronous_downloads.
  pose proof (request_url_responses_spec network
                request_url_response_content loop urls) as Hspec.
  destruct (request_url_responses _ _ _ _) as [l|e].
  - f_equal. clear loop. revert l Hspec.
    induction urls as [|url urls IH]; intros l Hspec.
    + destruct l; [done|discriminate].
    + destruct (Hsc url) as [content Hcontent]; [left|].
      csimpl. rewrite Hcontent.
      destruct l as [|x l]; [discriminate|].
      rewrite !fmap_cons in Hspec.
      rewrite (unit_outcome_success _ _ Hcontent) in Hspec.
      injection Hspec as -> Hspec. f_equal.
      apply IH; [|exact Hspec].
      intros url' Hin. apply Hsc. right. exact Hin.
  - destruct Hspec as (url & Hin & Hraise).
    destruct (Hsc url Hin) as [content Hcontent].
    rewrite (unit_outcome_success _ _ Hcontent) in Hraise. discriminate.
Qed.

(** C6. Equivalence: for 50 requests to one URL that answers with a
    success status and the same bytes, the sequential runner and the
    concurrent runner return the same list, the body 50 times, under
    every schedule. *)
Theorem downloads_equivalent loop url reply :
  network url = Some reply ->
  reply_ok reply = true ->
  exists downloads,
    sequential_downloads network (replicate 50 url) = Return downloads /\
    asynchronous_downloads network loop (replicate 50 url)
      = Return downloads /\
    downloads = replicate 50 (concat (reply_body reply)).
Proof.
  intros Hreply Hok.
  assert (success_content network url = Some (concat (reply_body reply)))
    as Hcontent by (unfold success_content; rewrite Hreply, Hok; done).
  assert (forall n, omap (success_content network) (replicate n url)
                    = replicate n (concat (reply_body reply))) as Homap.
  { induction n as [|n IH]; [done|]. csimpl. rewrite Hcontent, IH. done. }
  exists (replicate 50 (concat (reply_body reply))).
  split; [|split; [|done]].
  - unfold sequential_downloads. rewrite sequential_loop_spec.
    + rewrite Homap. done.
    + intros url' ->%elem_of_replicate_inv. rewrite Hreply. eauto.
  - rewrite asynchronous_downloads_all_success.
    + rewrite Homap. done.
    + intros url' ->%elem_of_replicate_inv. rewrite Hcontent. eauto.
Qed.

End runners.

(** ** The properties on the sample network *)

(** Membership in a list that is written out. *)
Ltac in_batch := repeat constructor.

(** A statement about every URL of a list that is written out. *)
Ltac each_url :=
  let url := fresh "url" in
  let Hin := fresh "Hin" in
  intros url Hin;
  repeat (apply elem_of_cons in Hin as [->|Hin]);
  [vm_compute; eauto ..| apply elem_of_nil in Hin; destruct Hin].

(** Under [sample_loop] the third task finishes first and the first one
    last. *)
Lemma sample_completion_order :
  asyncio.completion_order sample_loop
    ((fun url => asyncio.ensure_future
        (request_url_response_content (open_session sample_network) url))
       <$> sample_urls)
  = [2; 1; 3; 4; 0].
Proof. vm_compute. reflexivity. Qed.

(** The results are in the order of the URLs all the same. *)
Lemma request_url_responses_order_sample :
  let results := [b "a,b" ++ [Byte.x0a] ++ b "c,d"; []; b "a;b"; []; []] in
  length results = length sample_urls /\
  forall i url, sample_urls !! i = Some url ->
    exists v, results !! i = Some v /\
      unit_outcome sample_network request_url_response_content url = Return v.
Proof.
  apply (proj1 (request_url_responses_order sample_network
                  request_url_response_content sample_loop sample_urls _)).
  vm_compute. reflexivity.
Defined.

Lemma request_url_responses_length_sample :
  exists results,
    request_url_responses sample_network [4; 0; 3] sample_urls
      request_url_response_content = Return results /\
    length results = length sample_urls.
Proof.
  apply (proj2 (proj2 (request_url_responses_length sample_network [4; 0; 3]
                         sample_urls))).
  each_url.
Defined.

Lemma readers_empty_on_failure_sample :
  value (request_url_response_content (open_session sample_network)
           "http://host/missing") = Return [] /\
  value (request_url_response_json no_json (open_session sample_network)
           "http://host/missing") = Return (JObject []) /\
  value (request_url_csv_list (open_session sample_network)
           "http://host/missing" (u ";")) = Return [[ [] ]].
Proof.
  apply (readers_empty_on_failure no_json (open_session sample_network)
           "http://host/missing"
           {| aiohttp.ok := false; aiohttp.content := [b "Not Found"] |}
           (u ";")); reflexivity.
Defined.

Lemma request_url_responses_fail_fast_sample :
  request_url_responses sample_network [1; 0]
    ["http://host/rows"; "http://down/"; "http://host/semi"]%string
    request_url_response_content = Raise ClientError.
Proof.
  apply (request_url_responses_fail_fast sample_network
           request_url_response_content [1; 0]
           ["http://host/rows"; "http://down/"; "http://host/semi"]%string
           "http://down/" ClientError).
  - in_batch.
  - reflexivity.
  - intros url e Hin.
    repeat (apply elem_of_cons in Hin as [->|Hin]);
      [vm_compute; congruence ..| apply elem_of_nil in Hin; destruct Hin].
Defined.

Lemma sequential_downloads_drops_failures_sample :
  exists downloads,
    sequential_downloads sample_network sample_urls = Return downloads /\
    downloads = omap (success_content sample_network) sample_urls /\
    length downloads
      = length sample_urls
        - length (filter (fun url => failed sample_network url) sample_urls).
Proof.
  apply (sequential_downloads_drops_failures sample_network sample_urls).
  each_url.
Defined.

Lemma downloads_equivalent_sample :
  exists downloads,
    sequential_downloads sample_network (replicate 50 "http://host/rows"%string)
      = Return downloads /\
    asynchronous_downloads sample_network [7; 3; 11]
      (replicate 50 "http://host/rows"%string) = Return downloads /\
    downloads = replicate 50 (b "a,b" ++ [Byte.x0a] ++ b "c,d").
Proof.
  apply (downloads_equivalent sample_network [7; 3; 11] "http://host/rows"
           {| reply_ok := true;
              reply_body := [b "a,"; b "b"; [Byte.x0a]; b "c,d"] |});
    reflexivity.
Defined.

Lemma request_url_response_content_full_body_sample :
  let content := [b "a,"; b "b"; [Byte.x0a]; b "c,d"] in
  value (request_url_response_content (open_session sample_network)
           "http://host/rows") = Return (concat (chunks_read content)) /\
  concat (chunks_read content) = concat content.
Proof.
  apply (request_url_response_content_full_body (open_session sample_network)
           "http://host/rows"
           {| aiohttp.ok := true;
              aiohttp.content := [b "a,"; b "b"; [Byte.x0a]; b "c,d"] |});
    reflexivity.
Defined.

Lemma request_url_response_content_ambiguous_sample :
  value (request_url_response_content (open_session sample_network)
           "http://host/missing")
    = value (request_url_response_content (open_session sample_network)
               "http://host/empty") /\
  value (request_url_response_content (open_session sample_network)
           "http://host/empty") = Return [].
Proof.
  apply (request_url_response_content_ambiguous (open_session sample_network)
           "http://host/missing" "http://host/empty"
           {| aiohttp.ok := false; aiohttp.content := [b "Not Found"] |}
           {| aiohttp.ok := true; aiohttp.content := [] |});
    reflexivity.
Defined.

Lemma request_url_csv_list_rows_sample :
  value (request_url_csv_list (open_session sample_network)
           "http://host/rows" (u ","))
    = Return [[u "a"; u "b"]; [u "c"; u "d"]].
Proof.
  apply (request_url_csv_list_rows (open_session sample_network)
           "http://host/rows"
           {| aiohttp.ok := true;
              aiohttp.content := [b "a,"; b "b"; [Byte.x0a]; b "c,d"] |});
    reflexivity.
Defined.

Lemma request_url_csv_list_delimiter_sample :
  value (request_url_csv_list (open_session sample_network)
           "http://host/semi" (u ";")) = Return [[u "a"; u "b"]] /\
  value (request_url_csv_list (open_session sample_network)
           "http://host/semi" default_delimiter) = Return [[u "a;b"]].
Proof.
  apply (request_url_csv_list_delimiter (open_session sample_network)
           "http://host/semi"
           {| aiohttp.ok := true; aiohttp.content := [b "a;b"] |});
    reflexivity.
Defined.

(** * Further properties *)

(** ** The event loop, one turn at a time *)

Lemma gather_unfold {A} loop (tasks : list (asyncio.Task A)) :
  asyncio.gather loop tasks =
  match asyncio.select loop tasks with
  | None => asyncio.results tasks
  | Some (i, Done (Raise e)) => Raise e
  | Some (i, Done (Return a)) =>
      asyncio.gather (tl loop) (<[i:=asyncio.Finished (Return a)]> tasks)
  | Some (i, Await k) =>
      asyncio.gather (tl loop) (<[i:=asyncio.Pending k]> tasks)
  end.
Proof.
  funelim (asyncio.gather loop tasks);
    match goal with
    | Hs : asyncio.select _ _ = _ |- _ => rewrite Hs
    end; reflexivity.
Qed.




(** ** More on the batch dispatcher *)

Section dispatcher_more.

Context {A : Type} (network : Network).
Context (request_url : aiohttp.ClientSession -> string -> coroutine A).



End dispatcher_more.

Lemma fmap_Return_inj {A} (l1 l2 : list A) :
  Return <$> l1 = Return <$> l2 -> l1 = l2.
Proof.
  revert l2. induction l1 as [|x l1 IH]; intros [|y l2]; csimpl;
    intros Heq; try done.
  injection Heq as -> Heq. f_equal. apply IH. exact Heq.
Qed.

(** When the processing function returns [g url] for every URL of the batch,
    the dispatcher returns the list of the [g url]. *)
Lemma request_url_responses_map {A} network
    (request_url : aiohttp.ClientSession -> string -> coroutine A)
    (g : string -> A) loop urls :
  (forall url, url ∈ urls ->
     unit_outcome network request_url url = Return (g url)) ->
  request_url_responses network loop urls request_url = Return (g <$> urls).
Proof.
  intros Hg.
  pose proof (request_url_responses_spec network request_url loop urls)
    as Hspec.
  destruct (request_url_responses _ _ _ _) as [l|e].
  - f_equal. apply fmap_Return_inj. rewrite <- Hspec.
    rewrite <- list_fmap_compose. apply list_fmap_ext.
    intros i url Hi. simpl. apply Hg.
    apply list_elem_of_lookup. exists i. exact Hi.
  - destruct Hspec as (url & Hin & Hraise).
    rewrite (Hg url Hin) in Hraise. discriminate.
Qed.

(** ** More on draining a response body *)



(** ** More on the two runners *)

Section runners_more.

Context (network : Network).

(** What the byte-content reader yields for a URL of the network. *)
Lemma unit_outcome_content url :
  unit_outcome network request_url_response_content url =
  match network url with
  | None => Raise ClientError
  | Some reply =>
      Return (if reply_ok reply then concat (reply_body reply) else [])
  end.
Proof.
  unfold unit_outcome. rewrite request_url_response_content_value.
  unfold aiohttp.get. simpl.
  destruct (network url) as [reply|]; [|done]. simpl.
  destruct (reply_ok reply); done.
Qed.

Lemma sequential_loop_raise urls downloads e :
  sequential_loop network urls downloads = Raise e <->
  e = RequestException /\ exists url, url ∈ urls /\ network url = None.
Proof.
  revert downloads. induction urls as [|url urls IH]; intros downloads; simpl.
  - split; [discriminate|].
    intros (_ & url & Hin & _). apply elem_of_nil in Hin. destruct Hin.
  - unfold requests.get.
    destruct (network url) as [reply|] eqn:Hreply; simpl.
    + assert (sequential_loop network urls
                (if reply_ok reply
                 then downloads ++ [concat (reply_body reply)]
                 else downloads) = Raise e <->
              e = RequestException /\
              exists url, url ∈ urls /\ network url = None) as Hrest
        by apply IH.
      destruct (reply_ok reply); rewrite Hrest; split.
      all: intros (-> & url' & Hin & Hnone); split; [done|]; exists url'.
      all: split; [|done].
      all: try (right; exact Hin).
      all: apply elem_of_cons in Hin as [->|Hin]; [congruence | exact Hin].
    + split.
      * intros [= <-]. split; [done|]. exists url. split; [left | done].
      * intros (-> & _). done.
Qed.

(** X4. The sequential runner raises exactly when a URL of the list cannot
    be reached, and what it raises then is the transport fault of the
    client, whatever has been downloaded before: no partial list comes
    back. *)
Theorem sequential_downloads_raises urls e :
  sequential_downloads network urls = Raise e <->
  e = RequestException /\ exists url, url ∈ urls /\ network url = None.
Proof. apply sequential_loop_raise. Qed.

Lemma asynchronous_downloads_answered loop urls :
  (forall url, url ∈ urls -> is_Some (network url)) ->
  asynchronous_downloads network loop urls
    = Return ((fun url => default [] (success_content network url)) <$> urls).
Proof.
  intros Hnet. unfold asynchronous_downloads.
  apply request_url_responses_map. intros url Hin.
  rewrite unit_outcome_content. unfold success_content.
  destruct (Hnet url Hin) as [reply ->].
  destruct (reply_ok reply); done.
Qed.

(** X5. When every URL gets an HTTP response, the concurrent runner
    returns, under every schedule, one buffer per URL in the order of the
    URLs: the body where the status is a success status and an empty buffer
    where it is not. *)
Theorem asynchronous_downloads_contents loop urls :
  (forall url, url ∈ urls -> is_Some (network url)) ->
  asynchronous_downloads network loop urls
    = Return ((fun url => default [] (success_content network url)) <$> urls).
Proof. apply asynchronous_downloads_answered. Qed.

(** X6. The concurrent runner raises exactly when a URL of the list cannot
    be reached, under every schedule, and what it raises then is the
    transport fault of the client. *)
Theorem asynchronous_downloads_raises loop urls e :
  asynchronous_downloads network loop urls = Raise e <->
  e = ClientError /\ exists url, url ∈ urls /\ network url = None.
Proof.
  unfold asynchronous_downloads.
  pose proof (request_url_responses_spec network
                request_url_response_content loop urls) as Hspec.
  assert (forall url e',
            unit_outcome network request_url_response_content url = Raise e'
            -> e' = ClientError /\ network url = None) as Hfault.
  { intros url e'. rewrite unit_outcome_content.
    destruct (network url); [discriminate|]. intros [= <-]. done. }
  destruct (request_url_responses _ _ _ _) as [l|e0].
  - split; [discriminate|].
    intros (_ & url & Hin & Hnone). exfalso.
    apply list_elem_of_lookup in Hin as [i Hi].
    apply (f_equal (fun l => l !! i)) in Hspec.
    rewrite !list_lookup_fmap, Hi in Hspec. simpl in Hspec.
    rewrite unit_outcome_content, Hnone in Hspec.
    destruct (l !! i); simplify_eq/=.
  - destruct Hspec as (url & Hin & Hraise).
    destruct (Hfault url e0 Hraise) as [-> Hnone].
    split.
    + intros [= <-]. split; [done|]. exists url. done.
    + intros [-> _]. done.
Qed.


End runners_more.

(** ** More on the row-table reader *)

Lemma reader_dialect_of lines sep :
  csv.reader lines [sep] = csv.records (dialect_of sep) csv.parse_reset lines.
Proof. reflexivity. Qed.

Lemma parse_line_cons d self c line :
  csv.parse_line d self (c :: line) =
  match csv.parse_process_char d self (csv.Char c) with
  | Return self' => csv.parse_line d self' line
  | Raise e => Raise e
  end.
Proof.
  unfold csv.parse_line. simpl.
  destruct (csv.parse_process_char d self (csv.Char c)); done.
Qed.

Lemma is_linebreak_newline c : is_linebreak c = false -> csv.newline c = false.
Proof.
  unfold is_linebreak, csv.newline, utf_8.between, LF, CR. intros H.
  destruct (N.eqb_spec c 10) as [->|]; [done|].
  destruct (N.eqb_spec c 13) as [->|]; done.
Qed.

(** Inside a record, a line without quotes is cut at the delimiters. *)
Lemma parse_line_plain sep st fs f line :
  st = csv.START_FIELD \/ st = csv.IN_FIELD ->
  Forall (fun c => c <> quote /\ csv.newline c = false) line ->
  (N.of_nat (length f + length line) <= csv.field_limit)%N ->
  csv.parse_line (dialect_of sep)
    {| csv.state := st; csv.fields := fs; csv.field := f |} line
  = Return {| csv.state := csv.START_RECORD;
              csv.fields := fs ++ split_from sep f line;
              csv.field := [] |}.
Proof.
  intros Hst Hplain. revert st fs f Hst.
  induction Hplain as [|c line [Hq Hnl] _ IH]; intros st fs f Hst Hlen.
  - destruct Hst as [-> | ->]; reflexivity.
  - rewrite parse_line_cons.
    assert ((c =? quote)%N = false) as Hq' by (apply N.eqb_neq; exact Hq).
    assert ((csv.field_limit <=? N.of_nat (length f))%N = false) as Hlim
      by (apply N.leb_gt; simpl length in Hlen; lia).
    assert (csv.parse_process_char (dialect_of sep)
              {| csv.state := st; csv.fields := fs; csv.field := f |}
              (csv.Char c)
            = Return (if (c =? sep)%N
                      then {| csv.state := csv.START_FIELD;
                              csv.fields := fs ++ [f]; csv.field := [] |}
                      else {| csv.state := csv.IN_FIELD;
                              csv.fields := fs; csv.field := f ++ [c] |}))
      as ->.
    { unfold quote in Hq'.
      destruct Hst as [-> | ->];
        unfold csv.parse_process_char, csv.start_field, csv.in_field,
          csv.add_char_then, csv.parse_add_char, csv.is_char;
        cbn [csv.state csv.fields csv.field csv.quotechar csv.escapechar
             csv.delimiter csv.skipinitialspace dialect_of csv.excel];
        rewrite Hnl, ?Hq', ?Hlim, ?andb_false_r;
        destruct (c =? sep)%N; reflexivity. }
    simpl split_from. destruct (c =? sep)%N.
    + rewrite IH; [|by left|simpl in *; lia].
      rewrite <- app_assoc. reflexivity.
    + rewrite IH; [reflexivity|by right|].
      rewrite length_app. simpl in *. lia.
Qed.

(** A line without quotes, at the start of a record, gives its row. *)
Lemma parse_line_plain_row sep line :
  plain_line line ->
  csv.parse_line (dialect_of sep) csv.parse_reset line
  = Return {| csv.state := csv.START_RECORD;
              csv.fields := plain_row sep line; csv.field := [] |}.
Proof.
  intros [Hplain Hlen]. destruct line as [|c line]; [reflexivity|].
  pose proof (parse_line_plain sep csv.START_FIELD [] [] (c :: line)
                (or_introl eq_refl) Hplain Hlen) as H.
  rewrite parse_line_cons in *.
  apply Forall_cons in Hplain as [[_ Hnl] _].
  unfold csv.parse_process_char at 1. simpl csv.state. rewrite Hnl.
  exact H.
Qed.

Lemma records_plain sep lines :
  Forall plain_line lines ->
  csv.records (dialect_of sep) csv.parse_reset lines
  = Return (plain_row sep <$> lines).
Proof.
  induction 1 as [|line lines Hline _ IH]; [reflexivity|].
  simpl. rewrite (parse_line_plain_row sep line Hline). simpl.
  rewrite IH. reflexivity.
Qed.

(** The lines of [splitlines] are made of characters of the text, hold no
    line boundary and are not longer than the text. *)
Lemma splitlines_from_lines (P : N -> Prop) line s :
  Forall (fun c => P c /\ is_linebreak c = false) line ->
  Forall P s ->
  Forall (fun l => Forall (fun c => P c /\ is_linebreak c = false) l /\
                   length l <= length line + length s)
         (splitlines_from line s).
Proof.
  assert (exists n, length s < n) as [n Hn] by (exists (S (length s)); lia).
  revert line s Hn.
  induction n as [|n IH]; intros line s Hn Hline Hs; [lia|].
  destruct s as [|c rest]; simpl.
  - destruct line; constructor; [|constructor]. split; [exact Hline|lia].
  - apply Forall_cons in Hs as [Hc Hrest].
    assert (Forall (fun l =>
              Forall (fun c => P c /\ is_linebreak c = false) l /\
              length l <= length line + length (c :: rest))
              (line :: splitlines_from [] rest)) as Hbreak.
    { constructor; [split; [exact Hline | simpl; lia]|].
      eapply Forall_impl;
        [eapply IH; simpl in *; [lia|constructor|done]|].
      simpl. intros l [Hl Hlen]. split; [exact Hl | lia]. }
    destruct (is_linebreak c) eqn:Hbr.
    + destruct rest as [|c' rest']; [exact Hbreak|].
      destruct ((c =? CR)%N && (c' =? LF)%N); [|exact Hbreak].
      apply Forall_cons in Hrest as [_ Hrest'].
      constructor; [split; [exact Hline | simpl; lia]|].
      eapply Forall_impl;
        [eapply IH; simpl in *; [lia|constructor|done]|].
      simpl. intros l [Hl Hlen]. split; [exact Hl | simpl; lia].
    + eapply Forall_impl.
      * eapply IH; simpl in *; [lia| |exact Hrest].
        apply Forall_app. split; [exact Hline|].
        constructor; [done|constructor].
      * simpl. intros l [Hl Hlen]. split; [exact Hl|].
        rewrite length_app in Hlen. simpl in *. lia.
Qed.

Lemma splitlines_plain text :
  quote ∉ text ->
  (N.of_nat (length text) <= csv.field_limit)%N ->
  Forall plain_line (splitlines text).
Proof.
  intros Hq Hlen. unfold splitlines.
  eapply Forall_impl.
  - apply (splitlines_from_lines (fun c => c <> quote) [] text).
    + constructor.
    + apply Forall_forall. intros c Hc ->. exact (Hq Hc).
  - simpl. intros l [Hl Hll]. split.
    + eapply Forall_impl; [exact Hl|]. simpl. intros c [Hc Hbr].
      split; [exact Hc | apply is_linebreak_newline, Hbr].
    + simpl in Hll. lia.
Qed.

(** X8. Text without quotes: for a successful response whose body decodes
    to a text that holds no double quote and is not longer than the field
    limit, the row-table reader returns one row per line of the text: no
    field for an empty line, and else the parts of the line between the
    delimiters. *)
Theorem request_url_csv_list_plain session url response text sep :
  aiohttp.get session url = Return response ->
  aiohttp.ok response = true ->
  utf_8.decode (concat (aiohttp.content response)) = Return text ->
  quote ∉ text ->
  (N.of_nat (length text) <= csv.field_limit)%N ->
  value (request_url_csv_list session url [sep])
    = Return (plain_row sep <$> splitlines text).
Proof.
  intros Hget Hok Hdecode Hq Hlen.
  rewrite request_url_csv_list_value, Hget, Hok, Hdecode.
  rewrite reader_dialect_of. apply records_plain, splitlines_plain; done.
Qed.

(** X9. The delimiter is checked late: for a successful response with a
    body that decodes, a delimiter that is not one character long makes the
    row-table reader raise [TypeError]; for a response with a non-success
    status the same delimiter goes unnoticed. *)
Theorem request_url_csv_list_bad_delimiter session url response delimiter :
  aiohttp.get session url = Return response ->
  length delimiter <> 1 ->
  (aiohttp.ok response = true ->
   forall text,
     utf_8.decode (concat (aiohttp.content response)) = Return text ->
     value (request_url_csv_list session url delimiter)
       = Raise (TypeError "delimiter must be a 1-character string")) /\
  (aiohttp.ok response = false ->
   value (request_url_csv_list session url delimiter) = Return [[ [] ]]).
Proof.
  intros Hget Hdel. rewrite request_url_csv_list_value, Hget. split.
  - intros -> text ->. destruct delimiter as [|c [|c' delimiter]]; done.
  - intros ->. done.
Qed.

(** X10. A body that is not UTF-8 makes the row-table reader raise
    [UnicodeDecodeError] on a successful response, before the delimiter is
    looked at. *)
Theorem request_url_csv_list_undecodable session url response delimiter e :
  aiohttp.get session url = Return response ->
  aiohttp.ok response = true ->
  utf_8.decode (concat (aiohttp.content response)) = Raise e ->
  e = UnicodeDecodeError /\
  value (request_url_csv_list session url delimiter) = Raise UnicodeDecodeError.
Proof.
  intros Hget Hok Hdecode.
  assert (forall data e', utf_8.decode data = Raise e' ->
                          e' = UnicodeDecodeError) as Honly.
  { clear. intros data.
    remember (length data) as n eqn:Hn. revert data Hn.
    induction n as [n IH] using lt_wf_ind. intros data Hn e'.
    destruct data as [|b0 rest]; simpl; [discriminate|].
    assert (forall c (rest' : bytes),
              length rest' < n ->
              utf_8.push c (utf_8.decode rest') = Raise e' ->
              e' = UnicodeDecodeError) as Hpush.
    { intros c rest' Hlt. specialize (IH _ Hlt rest' eq_refl e').
      destruct (utf_8.decode rest'); simpl; [discriminate|].
      intros [= <-]. apply IH. reflexivity. }
    repeat match goal with
           | |- context [if ?x then _ else _] => destruct x
           | |- context [match ?l with [] => _ | _ :: _ => _ end] =>
               destruct l
           end;
      try (intros [= <-]; reflexivity);
      apply Hpush; simpl in *; lia. }
  apply Honly in Hdecode as Heq. subst e.
  split; [done|].
  rewrite request_url_csv_list_value, Hget, Hok, Hdecode. done.
Qed.

(** The reader keeps only characters that it has been fed. *)
Lemma parse_process_char_holds (P : N -> Prop) sep self i self' :
  holds_only P self ->
  match i with csv.Char c => P c | csv.EOL => True end ->
  csv.parse_process_char (dialect_of sep) self i = Return self' ->
  holds_only P self'.
Proof.
  destruct self as [st fs f]. intros (Hfs & Hf & Hst) Hi.
  assert (Forall (Forall P) (fs ++ [f])) as Hsave
    by (apply Forall_app; split;
          [exact Hfs | constructor; [exact Hf|constructor]]).
  unfold holds_only in *. simpl in Hfs, Hf, Hst.
  destruct st; try destruct Hst.
  all: unfold csv.parse_process_char, csv.start_field, csv.in_field,
         csv.add_char_then, csv.parse_add_char, csv.is_char;
       cbn [csv.state csv.fields csv.field csv.quotechar csv.escapechar
            csv.delimiter csv.skipinitialspace csv.doublequote csv.strict
            dialect_of csv.excel].
  all: destruct i as [c|].
  all: repeat match goal with
              | |- context [if ?x then _ else _] => destruct x
              end.
  all: intros H; simpl in H; try discriminate H; injection H as <-.
  all: repeat split; try done.
  all: apply Forall_app; split;
         [exact Hf | constructor; [exact Hi|constructor]].
Qed.

Lemma parse_chars_holds (P : N -> Prop) sep self line self' :
  holds_only P self -> Forall P line ->
  csv.parse_chars (dialect_of sep) self line = Return self' ->
  holds_only P self'.
Proof.
  intros Hself Hline. revert self Hself.
  induction Hline as [|c line Hc _ IH]; intros self Hself; simpl.
  - intros [= <-]. exact Hself.
  - destruct (csv.parse_process_char _ self (csv.Char c)) as [self1|]
      eqn:Hstep; [|discriminate].
    apply IH. eapply parse_process_char_holds; [exact Hself| |exact Hstep].
    exact Hc.
Qed.

Lemma parse_line_holds (P : N -> Prop) sep self line self' :
  holds_only P self -> Forall P line ->
  csv.parse_line (dialect_of sep) self line = Return self' ->
  holds_only P self'.
Proof.
  intros Hself Hline. unfold csv.parse_line.
  destruct (csv.parse_chars _ self line) as [self1|] eqn:Hchars;
    [|discriminate].
  intros Hstep.
  eapply (parse_process_char_holds P sep self1 csv.EOL);
    [|exact I|exact Hstep].
  eapply parse_chars_holds; eassumption.
Qed.

Lemma records_holds (P : N -> Prop) sep self lines rows :
  holds_only P self -> Forall (Forall P) lines ->
  csv.records (dialect_of sep) self lines = Return rows ->
  Forall (Forall (Forall P)) rows.
Proof.
  intros Hself Hlines. revert self rows Hself.
  induction Hlines as [|line lines Hline _ IH]; intros self rows Hself; simpl.
  - destruct (_ || _); intros [= <-]; [|constructor].
    constructor; [|constructor].
    destruct Hself as (Hfs & Hf & _).
    apply Forall_app. split; [exact Hfs | constructor; [exact Hf|constructor]].
  - destruct (csv.parse_line _ self line) as [self1|] eqn:Hstep;
      [|discriminate].
    pose proof (parse_line_holds P sep self line self1 Hself Hline Hstep)
      as Hself1.
    destruct (csv.state_eqb (csv.state self1) csv.START_RECORD).
    + destruct (csv.records _ csv.parse_reset lines) as [rows'|] eqn:Hrest;
        simpl; [|discriminate].
      intros [= <-]. constructor; [apply Hself1|].
      eapply IH; [|exact Hrest]. repeat split; constructor.
    + apply IH. exact Hself1.
Qed.

(** X11. No line boundary survives: whatever rows the row-table reader
    returns for a successful response and a delimiter of one character,
    every character of every field is a character of the decoded text and is
    no line boundary.  A quoted field that runs over several lines comes
    back with its lines joined. *)
Theorem request_url_csv_list_no_linebreak session url response text sep rows :
  aiohttp.get session url = Return response ->
  aiohttp.ok response = true ->
  utf_8.decode (concat (aiohttp.content response)) = Return text ->
  value (request_url_csv_list session url [sep]) = Return rows ->
  Forall (Forall (Forall (fun c => c ∈ text /\ is_linebreak c = false))) rows.
Proof.
  intros Hget Hok Hdecode.
  rewrite request_url_csv_list_value, Hget, Hok, Hdecode, reader_dialect_of.
  apply records_holds.
  - repeat split; constructor.
  - unfold splitlines. eapply Forall_impl.
    + apply (splitlines_from_lines (fun c => c ∈ text) [] text);
        [constructor|].
      apply Forall_forall. done.
    + simpl. intros l [Hl _]. exact Hl.
Qed.

(** X12. An empty page is an empty table: for a successful response with an
    empty body the row-table reader returns no row at all, not the table of
    one empty field that it returns for a failed request. *)
Theorem request_url_csv_list_empty_body session url response sep :
  aiohttp.get session url = Return response ->
  aiohttp.ok response = true ->
  concat (aiohttp.content response) = [] ->
  value (request_url_csv_list session url [sep]) = Return [].
Proof.
  intros Hget Hok Hbody.
  rewrite request_url_csv_list_value, Hget, Hok, Hbody. reflexivity.
Qed.

(** ** The sequential list inside the concurrent list *)



(** ** [main] *)

Lemma eq_list_refl {A} (eq : A -> A -> bool) l :
  (forall x, eq x x = true) -> eq_list eq l l = true.
Proof.
  intros Hrefl. induction l as [|x l IH]; [done|].
  simpl. rewrite Hrefl, IH. done.
Qed.

Lemma eq_downloads_refl downloads : eq_downloads downloads downloads = true.
Proof.
  apply eq_list_refl. intros x. apply eq_list_refl.
  intros c. apply Byte.byte_dec_lb. reflexivity.
Qed.

Section main_properties.

Context {T : Type} (time : nat -> T) (minus : T -> T -> T).
Context (network : Network).

(** What [main] does, by what the server answers. *)
Lemma main_cases loop :
  main T time minus network loop =
  match network main_url with
  | None => ([], Raise RequestException)
  | Some reply =>
      if reply_ok reply
      then ([Elapsed_sequential (minus (time 1) (time 0));
             Elapsed_asynchronous (minus (time 3) (time 2)); Blank;
             First_sequential (concat (reply_body reply)); Blank;
             First_asynchronous (concat (reply_body reply)); Blank;
             Identical],
            Return tt)
      else ([Elapsed_sequential (minus (time 1) (time 0));
             Elapsed_asynchronous (minus (time 3) (time 2)); Blank],
            Raise IndexError)
  end.
Proof.
  unfold main.
  destruct (network main_url) as [reply|] eqn:Hreply.
  - assert (forall url, url ∈ replicate 50 main_url -> is_Some (network url))
      as Hnet
      by (intros url ->%elem_of_replicate_inv; rewrite Hreply; eauto).
    unfold sequential_downloads.
    rewrite sequential_loop_spec by exact Hnet.
    rewrite asynchronous_downloads_answered by exact Hnet.
    assert (forall n, omap (success_content network) (replicate n main_url)
                      = if reply_ok reply
                        then replicate n (concat (reply_body reply))
                        else []) as Homap.
    { induction n as [|n IH]; csimpl; [destruct (reply_ok reply); done|].
      unfold success_content at 1. rewrite Hreply, IH.
      destruct (reply_ok reply); done. }
    rewrite app_nil_l, Homap, fmap_replicate.
    unfold success_content. rewrite Hreply.
    destruct (reply_ok reply); [|reflexivity].
    cbn [default]. rewrite lookup_replicate_2 by lia.
    rewrite eq_downloads_refl. reflexivity.
  - assert (sequential_downloads network (replicate 50 main_url)
            = Raise RequestException) as ->; [|done].
    apply sequential_loop_raise. split; [done|].
    exists main_url. split; [left|exact Hreply].
Qed.

(** X14. When the server answers the URL with a success status, [main]
    prints the two elapsed times, the body as the first item of either list
    and the verdict that the two lists are identical, under every
    schedule. *)
Theorem main_identical loop reply :
  network main_url = Some reply ->
  reply_ok reply = true ->
  main T time minus network loop
  = ([Elapsed_sequential (minus (time 1) (time 0));
      Elapsed_asynchronous (minus (time 3) (time 2)); Blank;
      First_sequential (concat (reply_body reply)); Blank;
      First_asynchronous (concat (reply_body reply)); Blank;
      Identical],
     Return tt).
Proof. intros Hreply Hok. rewrite main_cases, Hreply, Hok. done. Qed.

(** X15. When the server answers the URL with a non-success status, [main]
    prints the two elapsed times and then raises [IndexError]: the list of
    the sequential runner is empty and has no first item.  No verdict is
    printed. *)
Theorem main_index_error loop reply :
  network main_url = Some reply ->
  reply_ok reply = false ->
  main T time minus network loop
  = ([Elapsed_sequential (minus (time 1) (time 0));
      Elapsed_asynchronous (minus (time 3) (time 2)); Blank],
     Raise IndexError).
Proof. intros Hreply Hok. rewrite main_cases, Hreply, Hok. done. Qed.

(** X16. When the URL cannot be reached, [main] raises the transport fault
    of the blocking client and prints nothing. *)
Theorem main_unreachable loop :
  network main_url = None ->
  main T time minus network loop = ([], Raise RequestException).
Proof. intros Hnone. rewrite main_cases, Hnone. done. Qed.


End main_properties.

(** ** Segments and empty batches *)



(** X19. An empty batch: for the empty list of URLs the dispatcher returns
    the empty list, with every processing function and under every
    schedule, and so does the sequential runner. *)
Theorem empty_batch {A} network loop
    (request_url : aiohttp.ClientSession -> string -> coroutine A) :
  request_url_responses network loop [] request_url = Return [] /\
  sequential_downloads network [] = Return [].
Proof.
  split; [|reflexivity].
  unfold request_url_responses. rewrite gather_unfold. reflexivity.
Qed.

(** ** The further properties on sample networks *)

(** A character that is not in a text that is written out. *)
Ltac not_in_text :=
  let Hin := fresh "Hin" in
  intros Hin;
  repeat (apply elem_of_cons in Hin as [Hin|Hin]; [discriminate Hin|]);
  apply elem_of_nil in Hin; exact Hin.


(** The batch of an unreachable URL and of a page that is not UTF-8 raises
    the transport fault when the loop runs the tasks in their order. *)
Lemma request_url_responses_first_error_sample :
  request_url_responses faulty_network []
    ["http://down/"; "http://host/binary"]%string
    (fun session url => request_url_csv_list session url (u ","))
  = Raise ClientError.
Proof. vm_compute. reflexivity. Qed.


Lemma asynchronous_downloads_contents_sample :
  asynchronous_downloads sample_network sample_loop sample_urls
  = Return ((fun url => default [] (success_content sample_network url))
              <$> sample_urls).
Proof.
  apply (asynchronous_downloads_contents sample_network sample_loop
           sample_urls).
  each_url.
Defined.



Lemma request_url_csv_list_plain_sample :
  value (request_url_csv_list (open_session sample_network)
           "http://host/rows" (u ";"))
  = Return (plain_row 0x3B <$> splitlines (u "a,b" ++ [LF] ++ u "c,d")).
Proof.
  apply (request_url_csv_list_plain (open_session sample_network)
           "http://host/rows"
           {| aiohttp.ok := true;
              aiohttp.content := [b "a,"; b "b"; [Byte.x0a]; b "c,d"] |}).
  - reflexivity.
  - reflexivity.
  - reflexivity.
  - not_in_text.
  - vm_compute. discriminate.
Defined.

Lemma request_url_csv_list_bad_delimiter_sample :
  value (request_url_csv_list (open_session sample_network)
           "http://host/rows" (u ", "))
  = Raise (TypeError "delimiter must be a 1-character string").
Proof.
  apply (request_url_csv_list_bad_delimiter (open_session sample_network)
           "http://host/rows"
           {| aiohttp.ok := true;
              aiohttp.content := [b "a,"; b "b"; [Byte.x0a]; b "c,d"] |}
           (u ", ") eq_refl)
    with (text := u "a,b" ++ [LF] ++ u "c,d").
  - vm_compute. discriminate.
  - reflexivity.
  - reflexivity.
Defined.

Lemma request_url_csv_list_undecodable_sample :
  UnicodeDecodeError = UnicodeDecodeError /\
  value (request_url_csv_list (open_session faulty_network)
           "http://host/binary" (u ","))
  = Raise UnicodeDecodeError.
Proof.
  apply (request_url_csv_list_undecodable (open_session faulty_network)
           "http://host/binary"
           {| aiohttp.ok := true;
              aiohttp.content := [[Byte.xff; Byte.xfe]] |});
    reflexivity.
Defined.

(** The quoted field [a], line feed, [b] comes back as [ab]. *)
Lemma request_url_csv_list_no_linebreak_sample :
  Forall (Forall (Forall (fun c =>
     c ∈ [quote; 0x61; LF; 0x62; quote]%N /\ is_linebreak c = false)))
    [[u "ab"]].
Proof.
  apply (request_url_csv_list_no_linebreak (open_session quoted_network)
           "http://host/quoted"
           {| aiohttp.ok := true;
              aiohttp.content :=
                [[Byte.x22; Byte.x61; Byte.x0a; Byte.x62; Byte.x22]] |}
           [quote; 0x61; LF; 0x62; quote]%N 0x2C%N);
    reflexivity.
Defined.

Lemma request_url_csv_list_empty_body_sample :
  value (request_url_csv_list (open_session sample_network)
           "http://host/empty" (u ","))
  = Return [].
Proof.
  apply (request_url_csv_list_empty_body (open_session sample_network)
           "http://host/empty"
           {| aiohttp.ok := true; aiohttp.content := [] |});
    reflexivity.
Defined.

Lemma main_identical_sample :
  main nat (fun k => 10 * k) Nat.sub (todo_network true) sample_loop
  = ([Elapsed_sequential 10; Elapsed_asynchronous 10; Blank;
      First_sequential (b "{}"); Blank;
      First_asynchronous (b "{}"); Blank; Identical],
     Return tt).
Proof.
  apply (main_identical (fun k => 10 * k) Nat.sub (todo_network true)
           sample_loop {| reply_ok := true; reply_body := [b "{}"] |});
    reflexivity.
Defined.

Lemma main_index_error_sample :
  main nat (fun k => 10 * k) Nat.sub (todo_network false) sample_loop
  = ([Elapsed_sequential 10; Elapsed_asynchronous 10; Blank],
     Raise IndexError).
Proof.
  apply (main_index_error (fun k => 10 * k) Nat.sub (todo_network false)
           sample_loop {| reply_ok := false; reply_body := [b "{}"] |});
    reflexivity.
Defined.

Lemma main_unreachable_sample :
  main nat (fun k => 10 * k) Nat.sub sample_network sample_loop
  = ([], Raise RequestException).
Proof.
  apply (main_unreachable (fun k => 10 * k) Nat.sub sample_network
           sample_loop).
  reflexivity.
Defined.

